(** * array/base/count-if: counting the elements that pass a predicate

    A shallow embedding of [lib/main.js] (functions [indexed], [accessors]
    and [countIf]) together with the properties of its specification.

    Modelling conventions.
    - A JavaScript value is a term of [JS.value]; numbers are IEEE 754
      binary64 numbers ([spec_float] at precision 53), and the test of an
      [if] statement is [JS.ToBoolean].
    - The collection [x] is an object in the caller's store: the predicate
      receives it as its third argument and may read or write it.  A store
      therefore holds the backing cells of [x] next to the caller's heap
      (the state behind [thisArg] and behind the predicate's closure).
    - The predicate is a store transformer returning a value.  Abrupt
      completion of the predicate (a [throw]) is outside the model: the
      source has no handler, so it would simply leave [countIf].
    - The source loop tests [i < x.length] before every iteration, so a
      predicate that keeps growing [x] keeps the loop running.  The loops are
      given by recursion on a fuel argument, one unit per evaluation of the
      loop test; [None] means that the fuel ran out.
    - [n] and [i] are natural numbers: both stay below [x.length], which is
      below 2^53, so that [n += 1] and [i++] on doubles are exact. *)

From Stdlib Require Import String ZArith List Bool Lia PeanoNat SpecFloat.
Import ListNotations.

Set Implicit Arguments.

(** ** JavaScript values and truthiness *)

Module JS.

(** Numbers are binary64 floating-point numbers. *)
Definition number : Type := spec_float.
Definition prec : Z := 53.
Definition emax : Z := 1024.

(** The double nearest to an integer (exact below 2^53). *)
Definition of_Z (z : Z) : number := binary_normalize prec emax z 0 false.

(** [a > b] on numbers; [false] as soon as one side is NaN. *)
Definition gt (a b : number) : bool := SFltb b a.

Inductive value : Type :=
| VUndefined
| VNull
| VBool (b : bool)
| VNumber (f : number)
| VBigInt (z : Z)
| VString (s : string)
| VComplex (re im : number)   (* a Complex128 object *)
| VObject (ref : nat).        (* any other object, by address *)

(** ECMAScript ToBoolean: [undefined], [null], [false], [+0], [-0], [NaN],
    [0n] and the empty string are falsy; everything else is truthy. *)
Definition ToBoolean (v : value) : bool :=
  match v with
  | VUndefined | VNull => false
  | VBool b => b
  | VNumber S754_nan | VNumber (S754_zero _) => false
  | VNumber _ => true
  | VBigInt z => negb (Z.eqb z 0)
  | VString s => negb (String.eqb s EmptyString)
  | VComplex _ _ | VObject _ => true
  end.

End JS.
Import JS.

(** ** The accessor protocol

    An accessor array is an object read through [x.get( i )] instead of
    [x[ i ]].  [acc_length] is its [length] property and [acc_get] its [get]
    method, both as functions of the object's backing storage. *)

Class AccessorProtocol (B : Type) : Type := {
  acc_length : B -> nat;
  acc_get : B -> nat -> value
}.

(** The wrapper built by [toAccessorArray( arr )]: [get( i )] returns
    [arr[ i ]] and [length] is [arr.length]. *)
Record AccessorArray : Type := toAccessorArray { wrapped : list value }.

#[export] Instance AccessorArray_protocol : AccessorProtocol AccessorArray := {
  acc_length a := length (wrapped a);
  acc_get a i := nth i (wrapped a) VUndefined
}.

(** [Complex128Array]: interleaved real and imaginary components; element
    [i] is the complex number made of components [2i] and [2i+1], and reads
    outside the array give [undefined]. *)
Record Complex128Array : Type := newComplex128Array { components : list number }.

Definition Complex128Array_length (a : Complex128Array) : nat :=
  Nat.div2 (length (components a)).

Definition Complex128Array_get (a : Complex128Array) (i : nat) : value :=
  if i <? Complex128Array_length a
  then VComplex (nth (2 * i) (components a) S754_nan)
                (nth (2 * i + 1) (components a) S754_nan)
  else VUndefined.

#[export] Instance Complex128Array_protocol : AccessorProtocol Complex128Array := {
  acc_length := Complex128Array_length;
  acc_get := Complex128Array_get
}.

(** ** Stores, collections and predicates *)

(** How the collection is read: by direct indexing or through accessors.  The
    representation of an object is fixed when it is created. *)
Inductive representation : Type := Indexed | Accessor.

Section CountIf.

(** The caller's heap (the state behind [thisArg] and the predicate's
    closure) and the backing storage of accessor arrays. *)
Variable H : Type.
Context {B : Type} {protocol : AccessorProtocol B}.

(** Backing storage of the collection: the list of its elements for an
    indexed collection, the accessor array's own storage otherwise. *)
Definition backing (r : representation) : Type :=
  match r with
  | Indexed => list value
  | Accessor => B
  end.

Record store (r : representation) : Type := mkStore {
  coll : backing r;
  heap : H
}.

(** [x.length] *)
Definition x_length (r : representation) : backing r -> nat :=
  match r with
  | Indexed => fun xs => length xs
  | Accessor => fun b => acc_length b
  end.

(** [x[ i ]]: the element of an indexed collection, [undefined] for a
    missing index and for an accessor array (which has no indexed
    properties). *)
Definition x_index (r : representation) : backing r -> nat -> value :=
  match r with
  | Indexed => fun xs i => nth i xs VUndefined
  | Accessor => fun _ _ => VUndefined
  end.

(** [isAccessorArray( x )]: does [x] have [get] and [set] methods? *)
Definition isAccessorArray (r : representation) : bool :=
  match r with
  | Indexed => false
  | Accessor => true
  end.

(** [resolveGetter( x )]: the function [get( x, i )] suited to [x], which
    calls [x.get( i )] on an accessor array and reads [x[ i ]] otherwise. *)
Definition resolveGetter (r : representation) : backing r -> nat -> value :=
  match r with
  | Indexed => fun xs i => nth i xs VUndefined
  | Accessor => fun b i => acc_get b i
  end.

(** A predicate: [predicate r thisArg v i st] is the call
    [predicate.call( thisArg, v, i, x )] made in store [st], where [x] is
    the collection held by [st] and [r] its representation.  It returns
    the value of the call and the store the call leaves behind. *)
Definition callback : Type :=
  forall r : representation,
    value -> value -> nat -> store r -> value * store r.

(** *** [indexed( x, predicate, thisArg )] *)

Fixpoint indexed_loop (r : representation) (predicate : callback)
    (thisArg : value) (fuel i n : nat) (st : store r)
    : option (nat * store r) :=
  match fuel with
  | O => None
  | S fuel' =>
      if i <? x_length r (coll st) then
        let (v, st') := predicate r thisArg (x_index r (coll st) i) i st in
        indexed_loop predicate thisArg fuel' (S i)
          (if ToBoolean v then n + 1 else n) st'
      else Some (n, st)
  end.

Definition indexed (r : representation) (fuel : nat) (predicate : callback)
    (thisArg : value) (st : store r) : option (nat * store r) :=
  indexed_loop predicate thisArg fuel 0 0 st.

(** *** [accessors( x, predicate, thisArg )] *)

Fixpoint accessors_loop (r : representation)
    (get : backing r -> nat -> value) (predicate : callback)
    (thisArg : value) (fuel i n : nat) (st : store r)
    : option (nat * store r) :=
  match fuel with
  | O => None
  | S fuel' =>
      if i <? x_length r (coll st) then
        let (v, st') := predicate r thisArg (get (coll st) i) i st in
        accessors_loop get predicate thisArg fuel' (S i)
          (if ToBoolean v then n + 1 else n) st'
      else Some (n, st)
  end.

Definition accessors (r : representation) (fuel : nat)
    (predicate : callback) (thisArg : value) (st : store r)
    : option (nat * store r) :=
  let get := resolveGetter r in
  accessors_loop get predicate thisArg fuel 0 0 st.

(** *** [countIf( x, predicate, thisArg )] *)

Definition countIf (r : representation) (fuel : nat) (predicate : callback)
    (thisArg : value) (st : store r) : option (nat * store r) :=
  if isAccessorArray r
  then accessors fuel predicate thisArg st
  else indexed fuel predicate thisArg st.

End CountIf.

(** ** The run of [countIf], invocation by invocation *)

Section Run.

Variable H : Type.
Context {B : Type} {protocol : AccessorProtocol B}.
Variable r : representation.
Variable predicate : callback H (B := B).
Variable thisArg : value.
Arguments predicate : clear implicits.

(** The read that [countIf] performs at index [i]: [get( x, i )] with the
    resolved getter on an accessor array, [x[ i ]] otherwise. *)
Definition element : backing r -> nat -> value :=
  if isAccessorArray r then resolveGetter r else x_index r.

(** The invocation for index [i], made in store [st]:
    [predicate.call( thisArg, x[ i ], i, x )]. *)
Definition invoke (i : nat) (st : store H r) : value * store H r :=
  predicate r thisArg (element (coll st) i) i st.

(** The store left by the invocations for indices [0 .. i-1], made in
    index order from the store [st]. *)
Fixpoint state_before (i : nat) (st : store H r) : store H r :=
  match i with
  | O => st
  | S j => snd (invoke j (state_before j st))
  end.

(** Does the invocation for index [i] return a truthy value? *)
Definition passes (st : store H r) (i : nat) : bool :=
  ToBoolean (fst (invoke i (state_before i st))).

(** The number of indices in [[i, e)] whose invocation returns a truthy
    value. *)
Definition passing (st : store H r) (i e : nat) : nat :=
  length (filter (passes st) (seq i (e - i))).

(** The count as the specification words it: the number of indices [i] in
    [[0, x.length)], [x.length] being the length when [countIf] is called,
    at which the predicate returns a truthy value. *)
Definition count_spec (st : store H r) : nat :=
  passing st 0 (x_length r (coll st)).

(** The store once every index in [[0, x.length)] has been visited. *)
Definition final_spec (st : store H r) : store H r :=
  state_before (x_length r (coll st)) st.

(** The first index at or after [i], within [fuel] loop tests, at which the
    test [i < x.length] of the source fails. *)
Fixpoint exit_index (st : store H r) (fuel i : nat) : option nat :=
  match fuel with
  | O => None
  | S fuel' =>
      if i <? x_length r (coll (state_before i st))
      then exit_index st fuel' (S i)
      else Some i
  end.

(** No invocation of the run changes [x.length]. *)
Definition length_stable (st : store H r) : Prop :=
  forall i, i <= x_length r (coll st) ->
    x_length r (coll (state_before i st)) = x_length r (coll st).

(** No invocation of the run makes [x] longer than it was at the call. *)
Definition never_longer (st : store H r) : Prop :=
  forall i, i <= x_length r (coll st) ->
    x_length r (coll (state_before i st)) <= x_length r (coll st).

(** Every invocation of the run returns a truthy (resp. falsy) value. *)
Definition all_pass (st : store H r) : Prop :=
  forall i, i < x_length r (coll st) -> passes st i = true.


(** The loop makes the invocations for the indices [0 .. e-1]: each of
    these indices is below the length [x] has when the loop gets to it. *)
Definition reached (st : store H r) (e : nat) : Prop :=
  forall j, j < e -> j < x_length r (coll (state_before j st)).

(** The call returns after [e] invocations: the loop makes the invocations
    for the indices [0 .. e-1] and its test [i < x.length] fails at [e]. *)
Definition stops_at (st : store H r) (e : nat) : Prop :=
  reached st e /\ x_length r (coll (state_before e st)) <= e.

(** No invocation the loop makes leaves [x] longer than it was at the
    call. *)
Definition never_lengthened (st : store H r) : Prop :=
  forall e, reached st e ->
    x_length r (coll (state_before e st)) <= x_length r (coll st).

(** Every invocation of the run adds one to the counter [count] kept in
    the caller's heap. *)
Definition increments (count : H -> nat) (st : store H r) : Prop :=
  forall i, i < x_length r (coll st) ->
    count (heap (state_before (S i) st)) =
    S (count (heap (state_before i st))).

End Run.

(** ** Properties a predicate may have *)

Section Predicates.

Variable H : Type.
Context {B : Type} {protocol : AccessorProtocol B}.
Variable predicate : callback H (B := B).
Arguments predicate : clear implicits.

(** The predicate does not itself mutate [x]. *)
Definition leaves_collection : Prop :=
  forall r thisArg v i (st : store H r),
    coll (snd (predicate r thisArg v i st)) = coll st.

(** The predicate is pure: it leaves the store as it found it, and its
    value depends on its arguments only, the contents of [x] included. *)
Definition pure : Prop :=
  (forall r thisArg v i (st : store H r),
      snd (predicate r thisArg v i st) = st) /\
  (forall r thisArg v i (st1 st2 : store H r),
      coll st1 = coll st2 ->
      fst (predicate r thisArg v i st1) = fst (predicate r thisArg v i st2)).

(** An indexed collection and an accessor array with the same elements in
    the same order. *)
Definition same_elements (xs : list value) (b : B) : Prop :=
  acc_length b = length xs /\
  forall i, i < length xs -> acc_get b i = nth i xs VUndefined.

(** Two stores holding such a pair next to the same heap. *)
Definition equivalent (s1 : store H (B := B) Indexed)
    (s2 : store H (B := B) Accessor) : Prop :=
  same_elements (coll s1) (coll s2) /\ heap s1 = heap s2.

(** The predicate does not tell the two representations apart: called
    with the same arguments in equivalent stores it returns values of the
    same truthiness and leaves equivalent stores. *)
Definition representation_independent : Prop :=
  forall thisArg v i s1 s2,
    equivalent s1 s2 ->
    ToBoolean (fst (predicate Indexed thisArg v i s1)) =
    ToBoolean (fst (predicate Accessor thisArg v i s2)) /\
    equivalent (snd (predicate Indexed thisArg v i s1))
               (snd (predicate Accessor thisArg v i s2)).

(** Two outcomes agree: both runs are still going, or both have returned
    the same count and left equivalent stores. *)
Definition agree (o1 : option (nat * store H (B := B) Indexed))
    (o2 : option (nat * store H (B := B) Accessor)) : Prop :=
  match o1, o2 with
  | Some (n1, t1), Some (n2, t2) => n1 = n2 /\ equivalent t1 t2
  | None, None => True
  | _, _ => False
  end.

End Predicates.

(** ** Predicates and collections of the test suite and of the examples *)

Section Examples.

Variable H : Type.
Context {B : Type} {protocol : AccessorProtocol B}.

(** An array of numbers, from integer literals. *)
Definition numbers (zs : list Z) : list value :=
  map (fun z => VNumber (of_Z z)) zs.

(** [value > 0] for a number; the test suite applies it to numbers only
    and the comparison of other values is not modelled (falsy). *)
Definition is_positive (v : value) : value :=
  match v with
  | VNumber f => VBool (gt f (of_Z 0))
  | _ => VBool false
  end.

(** [function predicate( value ) { return ( value > 0 ); }] *)
Definition positive : callback H (B := B) :=
  fun r thisArg v i st => (is_positive v, st).

(** [function predicate( value ) {
       return ( real( value ) > 0 && imag( value ) > 0 ); }] *)
Definition both_positive : callback H (B := B) :=
  fun r thisArg v i st =>
    (match v with
     | VComplex re im => VBool (gt re (of_Z 0) && gt im (of_Z 0))
     | _ => VBool false
     end, st).

(** [function predicate( v, i, x ) { x.pop(); return true; }], on arrays. *)
Definition popping : callback H (B := B) :=
  fun r =>
    match r return value -> value -> nat -> store H r -> value * store H r with
    | Indexed => fun thisArg v i st =>
        (VBool true, mkStore Indexed (removelast (coll st)) (heap st))
    | Accessor => fun thisArg v i st => (VBool true, st)
    end.


(** [function predicate( v, i, x ) {
       if ( i < 2 ) { x.push( 0 ); } else { x.length = 0; }
       return true; }], on arrays. *)
Definition grow_then_clear : callback H (B := B) :=
  fun r =>
    match r return value -> value -> nat -> store H r -> value * store H r with
    | Indexed => fun thisArg v i st =>
        (VBool true,
         mkStore Indexed
           (if i <? 2 then coll st ++ numbers [0%Z] else []) (heap st))
    | Accessor => fun thisArg v i st => (VBool true, st)
    end.

(** [function predicate( v, i, x ) {
       if ( x.length > 1 ) { x.pop(); } else { x.push( 0, 0, 0 ); }
       return result; }], on arrays. *)
Definition pop_then_grow (result : value) : callback H (B := B) :=
  fun r =>
    match r return value -> value -> nat -> store H r -> value * store H r with
    | Indexed => fun thisArg v i st =>
        (result,
         mkStore Indexed
           (if 1 <? length (coll st)
            then removelast (coll st)
            else coll st ++ numbers [0; 0; 0]%Z)
           (heap st))
    | Accessor => fun thisArg v i st => (result, st)
    end.

(** [function predicate( v, i, x ) { return isAccessorArray( x ); }] *)
Definition probe : callback H (B := B) :=
  fun r thisArg v i st => (VBool (isAccessorArray r), st).

End Examples.

(** The context object [{ 'count': n }] is the whole heap of these
    predicates: the heap is the value of its [count] property. *)

(** [function predicate( value ) { this.count += 1; return ( value > 0 ); }] *)
Definition positive_counting {B : Type} : callback nat (B := B) :=
  fun r thisArg v i st => (is_positive v, mkStore r (coll st) (heap st + 1)).

(** [function predicate( v, i, x ) {
       this.count += 1; x.pop(); return ( v > 0 ); }], on arrays. *)
Definition counting_popping {B : Type} : callback nat (B := B) :=
  fun r =>
    match r return value -> value -> nat -> store nat r -> value * store nat r with
    | Indexed => fun thisArg v i st =>
        (is_positive v, mkStore Indexed (removelast (coll st)) (heap st + 1))
    | Accessor => fun thisArg v i st =>
        (is_positive v, mkStore Accessor (coll st) (heap st + 1))
    end.

(** [new Complex128Array( [ 0.0, 0.0, 1.0, 0.0, 3.0, 4.0, 0.0, 5.0 ] )] *)
Definition complex_example : Complex128Array :=
  newComplex128Array (map of_Z [0; 0; 1; 0; 3; 4; 0; 5]%Z).

(** Collections and stores of the test suite. *)

Definition tested_array : list value := numbers [0; 1; 0; 1; 2]%Z.

Definition tested_indexed (count : nat) : store nat (B := AccessorArray) Indexed :=
  mkStore Indexed tested_array count.

Definition tested_accessor (count : nat) : store nat Accessor :=
  mkStore Accessor (toAccessorArray tested_array) count.

Definition ones : store nat (B := AccessorArray) Indexed :=
  mkStore Indexed (numbers [1; 1; 1]%Z) 0.

Definition zeros : store nat (B := AccessorArray) Indexed :=
  mkStore Indexed (numbers [0; 0; 0; 0]%Z) 0.

Definition empty_accessor : store nat Accessor :=
  mkStore Accessor (toAccessorArray []) 0.

Definition complex_store : store unit Accessor :=
  mkStore Accessor complex_example tt.

Definition single : store nat (B := AccessorArray) Indexed :=
  mkStore Indexed (numbers [1]%Z) 0.

Definition pair_indexed : store nat (B := AccessorArray) Indexed :=
  mkStore Indexed (numbers [1; 2]%Z) 0.

Definition pair_accessor : store nat Accessor :=
  mkStore Accessor (toAccessorArray (numbers [1; 2]%Z)) 0.

(** ** Further predicates: stateless, recording, and what they visit *)

Section Stateless.

Variable H : Type.
Context {B : Type} {protocol : AccessorProtocol B}.

(** A predicate without state, which does not look at its third argument:
    [function predicate( v, i ) { return q.call( this, v, i ); }] for a
    function [q] of the context, the element and the index alone. *)
Definition stateless (q : value -> value -> nat -> value)
    : callback H (B := B) :=
  fun r thisArg v i st => (q thisArg v i, st).

(** A stateless predicate of the element alone:
    [function predicate( v ) { return q( v ); }]. *)
Definition by_value (q : value -> value) : callback H (B := B) :=
  stateless (fun _ v _ => q v).

(** [function( v, i ) { return !q.call( this, v, i ); }] *)
Definition negated (q : value -> value -> nat -> value)
    : value -> value -> nat -> value :=
  fun thisArg v i => VBool (negb (ToBoolean (q thisArg v i))).

(** [function( v, i ) { return q.call( this, v, k + i ); }] *)
Definition shifted (k : nat) (q : value -> value -> nat -> value)
    : value -> value -> nat -> value :=
  fun thisArg v i => q thisArg v (k + i).

(** The elements of a collection, in index order, as [countIf] reads them. *)
Definition elements (r : representation) (c : backing r) : list value :=
  map (element r c) (seq 0 (x_length r c)).

(** Does [q] return a truthy value at index [i] of the collection [c]? *)
Definition truthy_at (q : value -> value -> nat -> value) (thisArg : value)
    (r : representation) (c : backing r) (i : nat) : bool :=
  ToBoolean (q thisArg (element r c i) i).

(** Every call of the predicate adds one to the counter [count] kept in the
    caller's heap, whatever else the call does. *)
Definition counts_calls (count : H -> nat) (predicate : callback H (B := B))
    : Prop :=
  forall r thisArg v i (st : store H r),
    count (heap (snd (predicate r thisArg v i st))) = S (count (heap st)).


End Stateless.

(** A predicate that records its calls: the heap is the list of the calls
    made so far, each with its context, element and index.
    [function predicate( v, i ) {
       calls.push( [ this, v, i ] ); return q.call( this, v, i ); }] *)
Definition recording {B : Type} (q : value -> value -> nat -> value)
    : callback (list (value * value * nat)) (B := B) :=
  fun r thisArg v i st =>
    (q thisArg v i, mkStore r (coll st) (heap st ++ [(thisArg, v, i)])).

(** [function( v, i ) { return ( i < k ); }] *)
Definition index_below (k : nat) : value -> value -> nat -> value :=
  fun _ _ i => VBool (i <? k).

(** * The shape of a run *)

Section Theory.

Variable H : Type.
Context {B : Type} {protocol : AccessorProtocol B}.
Variable r : representation.
Variable predicate : callback H (B := B).
Variable thisArg : value.
Arguments predicate : clear implicits.

Local Abbreviation len st := (x_length r (coll st)).

(** Both strategies run the same loop and differ in the read only. *)
Lemma indexed_loop_read (fuel i n : nat) (st : store H r) :
  indexed_loop predicate thisArg fuel i n st =
  accessors_loop (x_index r) predicate thisArg fuel i n st.
Proof.
  revert i n st.
  induction fuel as [|fuel IH]; intros i n st; simpl; [reflexivity|].
  destruct (i <? len st); [|reflexivity].
  destruct (predicate r thisArg (x_index r (coll st) i) i st) as [v st'].
  apply IH.
Qed.

Lemma countIf_loop (fuel : nat) (st : store H r) :
  countIf fuel predicate thisArg st =
  accessors_loop (element r) predicate thisArg fuel 0 0 st.
Proof.
  unfold countIf, element, indexed, accessors.
  destruct (isAccessorArray r); [reflexivity|].
  apply indexed_loop_read.
Qed.

Lemma exit_index_ge (st : store H r) (fuel i e : nat) :
  exit_index predicate thisArg st fuel i = Some e -> i <= e.
Proof.
  revert i.
  induction fuel as [|fuel IH]; intros i; simpl; [discriminate|].
  destruct (i <? len (state_before predicate thisArg i st)).
  - intros Hexit. apply IH in Hexit. lia.
  - intros [= <-]. lia.
Qed.

Lemma exit_index_test (st : store H r) (fuel i e : nat) :
  exit_index predicate thisArg st fuel i = Some e ->
  len (state_before predicate thisArg e st) <= e.
Proof.
  revert i.
  induction fuel as [|fuel IH]; intros i; simpl; [discriminate|].
  destruct (i <? len (state_before predicate thisArg i st)) eqn:Htest.
  - apply IH.
  - intros [= <-]. apply Nat.ltb_ge in Htest. exact Htest.
Qed.

Lemma passing_step (st : store H r) (i e : nat) :
  i < e ->
  passing predicate thisArg st i e =
  (if passes predicate thisArg st i then 1 else 0) +
  passing predicate thisArg st (S i) e.
Proof.
  intros Hlt. unfold passing.
  replace (e - i) with (S (e - S i)) by lia.
  simpl. destruct (passes predicate thisArg st i); reflexivity.
Qed.

Lemma passing_le (st : store H r) (i e : nat) :
  passing predicate thisArg st i e <= e - i.
Proof.
  unfold passing.
  etransitivity; [apply filter_length_le|].
  rewrite length_seq. reflexivity.
Qed.

Lemma passing_all (st : store H r) (i e : nat) :
  (forall j, i <= j < e -> passes predicate thisArg st j = true) ->
  passing predicate thisArg st i e = e - i.
Proof.
  intros Hall. unfold passing.
  rewrite forallb_filter_id; [apply length_seq|].
  apply forallb_forall.
  intros j Hj. apply in_seq in Hj. apply Hall. lia.
Qed.


(** The run in full: [countIf] stops at the first index at which the loop
    test fails and returns the number of earlier indices whose invocation
    was truthy, in the store those invocations leave. *)
Lemma loop_run (st : store H r) (fuel i n : nat) :
  accessors_loop (element r) predicate thisArg fuel i n
    (state_before predicate thisArg i st) =
  option_map
    (fun e => (n + passing predicate thisArg st i e,
               state_before predicate thisArg e st))
    (exit_index predicate thisArg st fuel i).
Proof.
  revert i n.
  induction fuel as [|fuel IH]; intros i n; [reflexivity|].
  cbn [accessors_loop exit_index].
  destruct (i <? len (state_before predicate thisArg i st)) eqn:Htest.
  - specialize (IH (S i)). cbn [state_before] in IH. unfold invoke in IH.
    destruct (predicate r thisArg
                (element r (coll (state_before predicate thisArg i st)) i) i
                (state_before predicate thisArg i st)) as [v st'] eqn:Hcall.
    cbn [snd] in IH. rewrite IH.
    destruct (exit_index predicate thisArg st fuel (S i)) as [e|] eqn:Hexit;
      [|reflexivity].
    apply exit_index_ge in Hexit. cbn [option_map].
    rewrite (@passing_step st i e) by lia.
    unfold passes, invoke. rewrite Hcall. cbn [fst].
    destruct (ToBoolean v); do 2 f_equal; lia.
  - cbn [option_map]. unfold passing. rewrite Nat.sub_diag. cbn.
    do 2 f_equal. lia.
Qed.

Lemma countIf_run (st : store H r) (fuel : nat) :
  countIf fuel predicate thisArg st =
  option_map
    (fun e => (passing predicate thisArg st 0 e,
               state_before predicate thisArg e st))
    (exit_index predicate thisArg st fuel 0).
Proof.
  rewrite countIf_loop. apply (loop_run st fuel 0 0).
Qed.

(** Where the run stops. *)
Lemma exit_index_bounded (st : store H r) (k i : nat) :
  never_longer predicate thisArg st ->
  i + k = len st ->
  exists e, exit_index predicate thisArg st (S k) i = Some e /\ e <= len st.
Proof.
  intros Hlen. revert i.
  induction k as [|k IH]; intros i Hik; cbn [exit_index].
  - destruct (i <? len (state_before predicate thisArg i st)) eqn:Htest.
    + apply Nat.ltb_lt in Htest. specialize (Hlen i). lia.
    + exists i. split; [reflexivity|lia].
  - destruct (i <? len (state_before predicate thisArg i st)) eqn:Htest.
    + apply (IH (S i)). lia.
    + exists i. split; [reflexivity|lia].
Qed.

Lemma exit_index_stable (st : store H r) (k i : nat) :
  length_stable predicate thisArg st ->
  i + k = len st ->
  exit_index predicate thisArg st (S k) i = Some (len st).
Proof.
  intros Hlen. revert i.
  induction k as [|k IH]; intros i Hik; cbn [exit_index];
    rewrite (Hlen i) by lia.
  - replace i with (len st) by lia. rewrite Nat.ltb_irrefl. reflexivity.
  - replace (i <? len st) with true by (symmetry; apply Nat.ltb_lt; lia).
    apply (IH (S i)). lia.
Qed.

Lemma length_stable_never_longer (st : store H r) :
  length_stable predicate thisArg st -> never_longer predicate thisArg st.
Proof.
  intros Hlen i Hi. rewrite (Hlen i Hi). reflexivity.
Qed.

(** A run that never makes [x] longer returns within [x.length + 1] loop
    tests. *)
Lemma countIf_returns (st : store H r) :
  never_longer predicate thisArg st ->
  exists e,
    e <= len st /\
    countIf (S (len st)) predicate thisArg st =
    Some (passing predicate thisArg st 0 e,
          state_before predicate thisArg e st).
Proof.
  intros Hlen.
  destruct (@exit_index_bounded st (len st) 0 Hlen eq_refl) as (e & He & Hle).
  exists e. split; [exact Hle|].
  rewrite countIf_run, He. reflexivity.
Qed.

Lemma countIf_stable (st : store H r) :
  length_stable predicate thisArg st ->
  countIf (S (len st)) predicate thisArg st =
  Some (count_spec predicate thisArg st, final_spec predicate thisArg st).
Proof.
  intros Hlen.
  rewrite countIf_run, (@exit_index_stable st (len st) 0 Hlen eq_refl).
  reflexivity.
Qed.

End Theory.

(** * Properties of [countIf] *)

Section Properties.

Variable H : Type.
Context {B : Type} {protocol : AccessorProtocol B}.
Variable r : representation.
Variable predicate : callback H (B := B).
Variable thisArg : value.
Arguments predicate : clear implicits.

Local Abbreviation len st := (x_length r (coll st)).

(** More fuel does not change the outcome of a run that has returned. *)
Lemma loop_more_fuel (get : backing r -> nat -> value) (fuel k i n : nat)
    (st : store H r) (res : nat * store H r) :
  accessors_loop get predicate thisArg fuel i n st = Some res ->
  accessors_loop get predicate thisArg (fuel + k) i n st = Some res.
Proof.
  revert i n st.
  induction fuel as [|fuel IH]; intros i n st;
    cbn [accessors_loop Nat.add]; [discriminate|].
  destruct (i <? len st); [|trivial].
  destruct (predicate r thisArg (get (coll st) i) i st) as [v st'].
  apply IH.
Qed.

Lemma countIf_deterministic (fuel1 fuel2 : nat) (st : store H r)
    (res1 res2 : nat * store H r) :
  countIf fuel1 predicate thisArg st = Some res1 ->
  countIf fuel2 predicate thisArg st = Some res2 ->
  res1 = res2.
Proof.
  rewrite !countIf_loop. intros H1 H2.
  apply loop_more_fuel with (k := fuel2) in H1.
  apply loop_more_fuel with (k := fuel1) in H2.
  rewrite (Nat.add_comm fuel2 fuel1) in H2. congruence.
Qed.

Lemma leaves_collection_run (st : store H r) (i : nat) :
  leaves_collection predicate ->
  coll (state_before predicate thisArg i st) = coll st.
Proof.
  intros Hleave.
  induction i as [|i IH]; cbn [state_before]; [reflexivity|].
  unfold invoke. rewrite Hleave. exact IH.
Qed.

Lemma leaves_collection_stable (st : store H r) :
  leaves_collection predicate -> length_stable predicate thisArg st.
Proof.
  intros Hleave i _. rewrite leaves_collection_run by exact Hleave.
  reflexivity.
Qed.

Lemma pure_run (st : store H r) (i : nat) :
  pure predicate -> state_before predicate thisArg i st = st.
Proof.
  intros [Hframe _].
  induction i as [|i IH]; cbn [state_before]; [reflexivity|].
  unfold invoke. rewrite Hframe. exact IH.
Qed.

Lemma pure_leaves_collection : pure predicate -> leaves_collection predicate.
Proof.
  intros [Hframe _] r' this v i st. rewrite Hframe. reflexivity.
Qed.

Lemma increments_run (count : H -> nat) (st : store H r) (i : nat) :
  increments predicate thisArg count st ->
  i <= len st ->
  count (heap (state_before predicate thisArg i st)) = count (heap st) + i.
Proof.
  intros Hinc.
  induction i as [|i IH]; intros Hi.
  - cbn [state_before]. lia.
  - rewrite (Hinc i) by lia. rewrite IH by lia. lia.
Qed.

(** C1, as amended.  When no invocation changes [x.length], [countIf]
    returns the number of indices [i] in [[0, x.length)] for which the
    predicate, invoked with [( x[ i ], i, x )] and bound to [thisArg],
    returns a truthy value; the invocations are made in index order from
    [0] to [x.length - 1], and the store is the one they leave. *)
Theorem countIf_counts_passing_indices (st : store H r) :
  length_stable predicate thisArg st ->
  countIf (S (len st)) predicate thisArg st =
  Some (count_spec predicate thisArg st, final_spec predicate thisArg st).
Proof.
  apply countIf_stable.
Qed.

(** C3.  On a collection of length 0, [countIf] returns 0, whatever the
    predicate and the context, and without invoking the predicate. *)
Theorem countIf_empty (st : store H r) (fuel : nat) :
  len st = 0 ->
  countIf (S fuel) predicate thisArg st = Some (0, st).
Proof.
  intros Hempty.
  rewrite countIf_run. cbn [exit_index state_before].
  rewrite Hempty. reflexivity.
Qed.

(** C4, as amended.  If every invocation returns a truthy value and none
    changes [x.length], then [countIf] returns [x.length]. *)
Theorem countIf_all_pass (st : store H r) :
  length_stable predicate thisArg st ->
  all_pass predicate thisArg st ->
  countIf (S (len st)) predicate thisArg st =
  Some (len st, final_spec predicate thisArg st).
Proof.
  intros Hlen Hall.
  rewrite (countIf_stable Hlen). unfold count_spec.
  rewrite passing_all; [rewrite Nat.sub_0_r; reflexivity|].
  intros j Hj. apply Hall. lia.
Qed.

(** C6, as amended.  If every invocation adds one to a counter kept on
    [thisArg] and none changes [x.length], the predicate is invoked once
    per element: when [countIf] returns, the counter has grown by
    [x.length] (and equals [x.length] when it started from 0). *)
Theorem countIf_invokes_once_per_element (count : H -> nat)
    (st : store H r) :
  length_stable predicate thisArg st ->
  increments predicate thisArg count st ->
  exists n st',
    countIf (S (len st)) predicate thisArg st = Some (n, st') /\
    count (heap st') = count (heap st) + len st.
Proof.
  intros Hlen Hinc.
  exists (count_spec predicate thisArg st), (final_spec predicate thisArg st).
  split; [apply (countIf_stable Hlen)|].
  unfold final_spec. apply increments_run; [exact Hinc|lia].
Qed.

(** C9.  [countIf] itself never writes to [x]: with a predicate that does
    not mutate [x], the call returns and the elements and the length of
    [x] are what they were before the call. *)
Theorem countIf_leaves_collection (st : store H r) :
  leaves_collection predicate ->
  exists n st',
    countIf (S (len st)) predicate thisArg st = Some (n, st') /\
    coll st' = coll st /\ len st' = len st.
Proof.
  intros Hleave.
  exists (count_spec predicate thisArg st), (final_spec predicate thisArg st).
  split; [apply countIf_stable, leaves_collection_stable, Hleave|].
  unfold final_spec. rewrite leaves_collection_run by exact Hleave.
  split; reflexivity.
Qed.

End Properties.

(** * The two strategies on equivalent collections *)

Section Strategies.

Variable H : Type.
Context {B : Type} {protocol : AccessorProtocol B}.
Variable predicate : callback H (B := B).
Variable thisArg : value.
Arguments predicate : clear implicits.

(** The loops of [indexed] and [accessors] advance in step. *)
Lemma loops_agree (fuel i n : nat) (s1 : store H (B := B) Indexed)
    (s2 : store H (B := B) Accessor) :
  representation_independent predicate ->
  equivalent s1 s2 ->
  agree (indexed_loop predicate thisArg fuel i n s1)
        (accessors_loop (resolveGetter Accessor) predicate thisArg
           fuel i n s2).
Proof.
  intros Hind. revert i n s1 s2.
  induction fuel as [|fuel IH]; intros i n s1 s2 Heq; [exact I|].
  cbn [indexed_loop accessors_loop].
  change (x_length Accessor (coll s2)) with (@acc_length B protocol (coll s2)).
  change (x_length Indexed (coll s1)) with (length (coll s1)).
  change (resolveGetter Accessor (coll s2) i)
    with (@acc_get B protocol (coll s2) i).
  change (x_index Indexed (coll s1) i) with (nth i (coll s1) VUndefined).
  pose proof Heq as [[Hlen Hget] _]. rewrite Hlen.
  destruct (i <? length (coll s1)) eqn:Htest.
  - apply Nat.ltb_lt in Htest. rewrite (Hget i Htest).
    destruct (Hind thisArg (nth i (coll s1) VUndefined) i s1 s2 Heq)
      as [Htruthy Heq'].
    destruct (predicate Indexed thisArg (nth i (coll s1) VUndefined) i s1)
      as [v1 t1].
    destruct (predicate Accessor thisArg (nth i (coll s1) VUndefined) i s2)
      as [v2 t2].
    cbn [fst snd] in Htruthy, Heq'. rewrite Htruthy.
    apply IH. exact Heq'.
  - split; [reflexivity|exact Heq].
Qed.

(** C2, as amended.  On an indexed collection and an accessor array with
    the same elements in the same order, and for a predicate that does not
    tell the two representations apart, [indexed] and [accessors] return
    equal counts: after any number of loop tests both have returned the
    same count or neither has returned, and both return when no invocation
    makes the collection longer than it was. *)
Theorem strategies_agree (s1 : store H (B := B) Indexed)
    (s2 : store H (B := B) Accessor) :
  representation_independent predicate ->
  equivalent s1 s2 ->
  (forall fuel,
      option_map fst (indexed fuel predicate thisArg s1) =
      option_map fst (accessors fuel predicate thisArg s2)) /\
  (never_longer predicate thisArg s1 ->
   exists n s1' s2',
     indexed (S (x_length Indexed (coll s1))) predicate thisArg s1 =
       Some (n, s1') /\
     accessors (S (x_length Accessor (coll s2))) predicate thisArg s2 =
       Some (n, s2') /\
     equivalent s1' s2').
Proof.
  intros Hind Heq.
  assert (Hagree : forall fuel,
             agree (indexed fuel predicate thisArg s1)
                   (accessors fuel predicate thisArg s2))
    by (intros fuel; apply loops_agree; assumption).
  split.
  - intros fuel. specialize (Hagree fuel).
    destruct (indexed fuel predicate thisArg s1) as [[n1 t1]|],
             (accessors fuel predicate thisArg s2) as [[n2 t2]|];
      cbn in *; try tauto.
    destruct Hagree as [-> _]. reflexivity.
  - intros Hlen.
    destruct (countIf_returns Hlen) as (e & _ & Hrun).
    change (countIf (S (x_length Indexed (coll s1))) predicate thisArg s1)
      with (indexed (S (x_length Indexed (coll s1))) predicate thisArg s1)
      in Hrun.
    specialize (Hagree (S (x_length Indexed (coll s1)))).
    rewrite Hrun in Hagree.
    replace (x_length Accessor (coll s2)) with (x_length Indexed (coll s1))
      by (symmetry; apply Heq).
    destruct (accessors (S (x_length Indexed (coll s1))) predicate thisArg s2)
      as [[n2 t2]|]; cbn in Hagree; [|contradiction].
    destruct Hagree as [<- Heq'].
    eexists _, _, _. repeat split; [exact Hrun|apply Heq'..].
Qed.

End Strategies.

(** * The test cases *)

(** C7.  The complex-valued collection of the test suite has the elements
    (0,0), (1,0), (3,4) and (0,5), and with the predicate that asks for a
    positive real part and a positive imaginary part [countIf] returns 1:
    only (3,4) passes. *)
Theorem countIf_complex_example :
  map (acc_get complex_example) (seq 0 (acc_length complex_example)) =
    [VComplex (of_Z 0) (of_Z 0); VComplex (of_Z 1) (of_Z 0);
     VComplex (of_Z 3) (of_Z 4); VComplex (of_Z 0) (of_Z 5)] /\
  countIf (S (x_length Accessor (coll complex_store)))
    (@both_positive unit _) VUndefined complex_store =
  Some (1, complex_store).
Proof.
  split; vm_compute; reflexivity.
Qed.

(** The examples of the documentation: [[ 0, 1, 0, 1, 2 ]] holds three
    positive elements, under either representation, and the counter of the
    context ends at 5. *)
Example countIf_tested_indexed :
  countIf 6 positive_counting (VObject 0) (tested_indexed 0) =
  Some (3, tested_indexed 5).
Proof. vm_compute. reflexivity. Qed.

Example countIf_tested_accessor :
  countIf 6 positive_counting (VObject 0) (tested_accessor 0) =
  Some (3, tested_accessor 5).
Proof. vm_compute. reflexivity. Qed.

(** ** Predicates that change the collection, or look at its representation *)

(** Case analysis on an index bounded by a concrete length: each case is
    settled by evaluation. *)
Ltac by_index i Hi :=
  intros i Hi; vm_compute in Hi;
  repeat (destruct i as [|i];
          [solve [vm_compute; first [reflexivity|lia]]|try lia]).

(** A run returns one result, whatever fuel it is given: [Hrun] is the
    evaluation of the run at some fuel. *)
Ltac same_run Hrun :=
  let fuel := fresh "fuel" in
  let res := fresh "res" in
  let Hres := fresh "Hres" in
  intros fuel res Hres;
  eapply countIf_deterministic in Hres; [|exact Hrun];
  subst res; repeat split; reflexivity.


(** C1 as stated fails for a predicate that shortens [x]: on [[ 1, 1, 1 ]]
    with a predicate that pops an element and returns [true], three indices
    lie in [[0, x.length)] and the predicate is truthy at each of them, but
    [countIf] returns 2. *)
Lemma popping_count_differs :
  x_length Indexed (coll ones) = 3 /\
  count_spec (@popping nat _) VUndefined ones = 3 /\
  countIf 3 (@popping nat _) VUndefined ones = Some (2, single) /\
  (forall fuel res,
      countIf fuel (@popping nat _) VUndefined ones = Some res ->
      fst res = 2).
Proof.
  assert (Hrun : countIf 3 (@popping nat _) VUndefined ones = Some (2, single))
    by (vm_compute; reflexivity).
  split; [reflexivity|].
  split; [vm_compute; reflexivity|].
  split; [exact Hrun|same_run Hrun].
Qed.

(** C4 as stated fails for the same predicate: every invocation returns
    [true], yet the result is 2 where [x.length] was 3 at the call and is 1
    at the return. *)
Lemma popping_all_pass_short :
  all_pass (@popping nat _) VUndefined ones /\
  x_length Indexed (coll ones) = 3 /\
  (forall fuel res,
      countIf fuel (@popping nat _) VUndefined ones = Some res ->
      fst res = 2 /\ x_length Indexed (coll (snd res)) = 1) /\
  countIf 3 (@popping nat _) VUndefined ones = Some (2, single).
Proof.
  assert (Hrun : countIf 3 (@popping nat _) VUndefined ones = Some (2, single))
    by (vm_compute; reflexivity).
  split; [by_index i Hi|].
  split; [reflexivity|].
  split; [same_run Hrun|exact Hrun].
Qed.


(** C6 as stated fails for a predicate that shortens [x]: on [[ 1, 1, 1 ]]
    with a predicate that adds one to the counter and pops an element, the
    counter ends at 2 where [x.length] was 3 at the call and is 1 at the
    return. *)
Lemma counting_popping_miscounts :
  increments counting_popping (VObject 0) (fun count => count) ones /\
  x_length Indexed (coll ones) = 3 /\ heap ones = 0 /\
  (forall fuel res,
      countIf fuel counting_popping (VObject 0) ones = Some res ->
      heap (snd res) = 2 /\ x_length Indexed (coll (snd res)) = 1) /\
  countIf 3 counting_popping (VObject 0) ones =
    Some (2, mkStore Indexed (numbers [1]%Z) 2).
Proof.
  assert (Hrun : countIf 3 counting_popping (VObject 0) ones =
                 Some (2, mkStore Indexed (numbers [1]%Z) 2))
    by (vm_compute; reflexivity).
  split; [by_index i Hi|].
  split; [reflexivity|].
  split; [reflexivity|].
  split; [same_run Hrun|exact Hrun].
Qed.

(** C10 as stated fails for a predicate that makes [x] longer: on [[ 1 ]]
    with a predicate that pushes an element at indices 0 and 1 and empties
    the array afterwards, [countIf] returns 3 where [x.length] was 1 at the
    call and is 0 at the return. *)
Lemma grow_then_clear_exceeds :
  x_length Indexed (coll single) = 1 /\
  countIf 4 (@grow_then_clear nat _) VUndefined single =
    Some (3, mkStore Indexed [] 0) /\
  (forall fuel res,
      countIf fuel (@grow_then_clear nat _) VUndefined single = Some res ->
      fst res = 3 /\ x_length Indexed (coll (snd res)) = 0).
Proof.
  assert (Hrun : countIf 4 (@grow_then_clear nat _) VUndefined single =
                 Some (3, mkStore Indexed [] 0))
    by (vm_compute; reflexivity).
  split; [reflexivity|].
  split; [exact Hrun|same_run Hrun].
Qed.

(** C2 as stated fails for a predicate that looks at the representation of
    its third argument: [[ 1, 2 ]] and [toAccessorArray( [ 1, 2 ] )] hold the
    same elements, but with the predicate [isAccessorArray( x )] the
    direct-index strategy returns 0 and the accessor strategy returns 2. *)
Lemma probe_tells_strategies_apart :
  equivalent pair_indexed pair_accessor /\
  indexed 3 (@probe nat _) VUndefined pair_indexed = Some (0, pair_indexed) /\
  accessors 3 (@probe nat _) VUndefined pair_accessor =
    Some (2, pair_accessor).
Proof.
  split; [|split; vm_compute; reflexivity].
  split; [|reflexivity].
  split; [reflexivity|].
  intros i _. reflexivity.
Qed.

(** ** The theorems at the inputs of the test suite *)

Lemma positive_counting_independent :
  representation_independent (@positive_counting AccessorArray).
Proof.
  intros this v i s1 s2 [Hsame Hheap].
  split; [reflexivity|].
  split; [exact Hsame|].
  cbn. rewrite Hheap. reflexivity.
Qed.

Lemma countIf_counts_passing_indices_witness :
  length_stable positive_counting (VObject 0) (tested_indexed 0) /\
  countIf 6 positive_counting (VObject 0) (tested_indexed 0) =
  Some (3, tested_indexed 5).
Proof.
  assert (Hlen : length_stable positive_counting (VObject 0) (tested_indexed 0))
    by (by_index i Hi).
  split; [exact Hlen|].
  exact (countIf_counts_passing_indices Hlen).
Defined.

Lemma countIf_empty_witness :
  x_length Accessor (coll empty_accessor) = 0 /\
  countIf 1 positive_counting (VObject 0) empty_accessor =
  Some (0, empty_accessor).
Proof.
  split; [reflexivity|].
  exact (countIf_empty positive_counting (VObject 0) empty_accessor 0 eq_refl).
Defined.

Lemma countIf_all_pass_witness :
  length_stable (@positive nat _) VUndefined ones /\
  all_pass (@positive nat _) VUndefined ones /\
  countIf 4 (@positive nat _) VUndefined ones = Some (3, ones).
Proof.
  assert (Hlen : length_stable (@positive nat _) VUndefined ones)
    by (by_index i Hi).
  assert (Hall : all_pass (@positive nat _) VUndefined ones)
    by (by_index i Hi).
  split; [exact Hlen|]. split; [exact Hall|].
  exact (countIf_all_pass Hlen Hall).
Defined.

Lemma countIf_invokes_once_per_element_witness :
  length_stable positive_counting (VObject 0) (tested_accessor 0) /\
  increments positive_counting (VObject 0) (fun count => count)
    (tested_accessor 0) /\
  exists n st',
    countIf 6 positive_counting (VObject 0) (tested_accessor 0) =
      Some (n, st') /\
    heap st' = 0 + 5.
Proof.
  assert (Hlen : length_stable positive_counting (VObject 0)
                   (tested_accessor 0))
    by (by_index i Hi).
  assert (Hinc : increments positive_counting (VObject 0)
                   (fun count => count) (tested_accessor 0))
    by (by_index i Hi).
  split; [exact Hlen|]. split; [exact Hinc|].
  exact (countIf_invokes_once_per_element Hlen Hinc).
Defined.

Lemma countIf_leaves_collection_witness :
  leaves_collection (@positive_counting AccessorArray) /\
  exists n st',
    countIf 6 positive_counting (VObject 0) (tested_accessor 0) =
      Some (n, st') /\
    coll st' = coll (tested_accessor 0) /\
    x_length Accessor (coll st') = 5.
Proof.
  assert (Hleave : leaves_collection (@positive_counting AccessorArray))
    by (intros r this v i st; reflexivity).
  split; [exact Hleave|].
  exact (countIf_leaves_collection (VObject 0) (tested_accessor 0) Hleave).
Defined.

Lemma strategies_agree_witness :
  representation_independent (@positive_counting AccessorArray) /\
  equivalent (tested_indexed 0) (tested_accessor 0) /\
  (forall fuel,
      option_map fst
        (indexed fuel positive_counting (VObject 0) (tested_indexed 0)) =
      option_map fst
        (accessors fuel positive_counting (VObject 0) (tested_accessor 0))) /\
  (never_longer positive_counting (VObject 0) (tested_indexed 0) ->
   exists n s1' s2',
     indexed 6 positive_counting (VObject 0) (tested_indexed 0) =
       Some (n, s1') /\
     accessors 6 positive_counting (VObject 0) (tested_accessor 0) =
       Some (n, s2') /\
     equivalent s1' s2').
Proof.
  assert (Heq : equivalent (tested_indexed 0) (tested_accessor 0)).
  { split; [|reflexivity]. split; [reflexivity|]. intros i _. reflexivity. }
  split; [exact positive_counting_independent|]. split; [exact Heq|].
  exact (strategies_agree (VObject 0) positive_counting_independent Heq).
Defined.

(** * Further properties of the run *)

Section Further.

Variable H : Type.
Context {B : Type} {protocol : AccessorProtocol B}.
Variable r : representation.
Variable thisArg : value.

Local Abbreviation len st := (x_length r (coll st)).

(** The exit index is the least index that is not below the live length. *)
Lemma exit_index_spec (predicate : callback H (B := B)) (st : store H r)
    (fuel i e : nat) :
  exit_index predicate thisArg st fuel i = Some e <->
  (i <= e < i + fuel /\
   (forall j, i <= j < e -> j < len (state_before predicate thisArg j st)) /\
   len (state_before predicate thisArg e st) <= e).
Proof.
  revert i.
  induction fuel as [|fuel IH]; intros i; cbn [exit_index].
  - split; [discriminate|lia].
  - destruct (i <? len (state_before predicate thisArg i st)) eqn:Htest.
    + apply Nat.ltb_lt in Htest. rewrite IH. split.
      * intros (Hrange & Hbelow & Hexit).
        split; [lia|]. split; [|exact Hexit].
        intros j Hj. destruct (Nat.eq_dec j i) as [->|Hne];
          [exact Htest|apply Hbelow; lia].
      * intros (Hrange & Hbelow & Hexit).
        assert (e <> i) by (intros ->; lia).
        split; [lia|]. split; [|exact Hexit].
        intros j Hj. apply Hbelow. lia.
    + apply Nat.ltb_ge in Htest. split.
      * intros [= <-]. split; [lia|]. split; [intros j Hj; lia|exact Htest].
      * intros (Hrange & Hbelow & Hexit).
        destruct (Nat.eq_dec e i) as [->|Hne]; [reflexivity|].
        specialize (Hbelow i). lia.
Qed.

Lemma stateless_pure (q : value -> value -> nat -> value) :
  pure (stateless (H := H) (B := B) q).
Proof.
  split; intros; reflexivity.
Qed.

(** The run of a stateless predicate. *)
Lemma stateless_run (q : value -> value -> nat -> value) (st : store H r) :
  countIf (S (len st)) (stateless q) thisArg st =
  Some (length (filter (truthy_at q thisArg r (coll st)) (seq 0 (len st))),
        st).
Proof.
  pose proof (stateless_pure q) as Hpure.
  rewrite countIf_stable
    by (apply leaves_collection_stable, pure_leaves_collection, Hpure).
  unfold final_spec, count_spec, passing.
  rewrite pure_run by exact Hpure.
  rewrite Nat.sub_0_r. do 3 f_equal.
  apply filter_ext. intros i. unfold passes, invoke.
  rewrite pure_run by exact Hpure. reflexivity.
Qed.

Lemma filter_length_mono (A : Type) (f g : A -> bool) (l : list A) :
  (forall a, In a l -> f a = true -> g a = true) ->
  length (filter f l) <= length (filter g l).
Proof.
  induction l as [|a l IH]; intros Himp; cbn [filter]; [reflexivity|].
  assert (IH' : length (filter f l) <= length (filter g l))
    by (apply IH; intros b Hb; apply Himp; right; exact Hb).
  destruct (f a) eqn:Hf.
  - rewrite (Himp a (or_introl eq_refl) Hf). cbn [length]. lia.
  - destruct (g a); cbn [length]; lia.
Qed.

Lemma filter_length_zero (A : Type) (f : A -> bool) (l : list A) :
  length (filter f l) = 0 <-> (forall a, In a l -> f a = false).
Proof.
  induction l as [|a l IH]; cbn [filter].
  - split; [intros _ b []|reflexivity].
  - destruct (f a) eqn:Hf; cbn [length].
    + split; [discriminate|].
      intros Hnone. rewrite (Hnone a (or_introl eq_refl)) in Hf.
      discriminate.
    + rewrite IH. split.
      * intros Hnone b [<-|Hb]; [exact Hf|apply Hnone, Hb].
      * intros Hnone b Hb. apply Hnone. right. exact Hb.
Qed.

Lemma filter_length_full (A : Type) (f : A -> bool) (l : list A) :
  length (filter f l) = length l <-> (forall a, In a l -> f a = true).
Proof.
  split.
  - intros Hfull. apply forallb_forall, filter_length_forallb, Hfull.
  - intros Hall. rewrite forallb_filter_id; [reflexivity|].
    apply forallb_forall, Hall.
Qed.

Lemma state_before_counts (count : H -> nat)
    (predicate : callback H (B := B)) (st : store H r) (e : nat) :
  counts_calls count predicate ->
  count (heap (state_before predicate thisArg e st)) = count (heap st) + e.
Proof.
  intros Hcount.
  induction e as [|e IH]; cbn [state_before]; [lia|].
  unfold invoke. rewrite Hcount, IH. lia.
Qed.


(** X1.  The run of [countIf], for any predicate: the call returns [n] in
    store [st'] within [fuel] loop tests exactly when there is an index [e]
    below [fuel] such that every earlier index was below the length [x] had
    when it was reached, [e] is not below the length [x] has then, [n] is
    the number of truthy invocations among the indices before [e], and
    [st'] is the store those [e] invocations leave. *)
Theorem countIf_run_exact (predicate : callback H (B := B))
    (st st' : store H r) (fuel n : nat) :
  countIf fuel predicate thisArg st = Some (n, st') <->
  exists e,
    e < fuel /\
    (forall j, j < e -> j < len (state_before predicate thisArg j st)) /\
    len (state_before predicate thisArg e st) <= e /\
    n = passing predicate thisArg st 0 e /\
    st' = state_before predicate thisArg e st.
Proof.
  rewrite countIf_run. split.
  - destruct (exit_index predicate thisArg st fuel 0) as [e|] eqn:Hexit;
      [|discriminate].
    cbn [option_map]. intros [= <- <-].
    apply exit_index_spec in Hexit. destruct Hexit as (Hrange & Hbelow & He).
    exists e. split; [lia|]. split; [intros j Hj; apply Hbelow; lia|].
    split; [exact He|]. split; reflexivity.
  - intros (e & Hfuel & Hbelow & He & -> & ->).
    assert (Hexit : exit_index predicate thisArg st fuel 0 = Some e).
    { apply exit_index_spec. split; [lia|].
      split; [intros j Hj; apply Hbelow; lia|exact He]. }
    rewrite Hexit. reflexivity.
Qed.

(** X2.  With a stateless predicate, [countIf] returns the number of
    indices [i] in [[0, x.length)] at which the predicate is truthy on
    [( x[ i ], i )], and leaves the store as it found it. *)
Theorem countIf_stateless (q : value -> value -> nat -> value)
    (st : store H r) :
  countIf (S (len st)) (stateless q) thisArg st =
  Some (length (filter (truthy_at q thisArg r (coll st)) (seq 0 (len st))),
        st).
Proof.
  apply stateless_run.
Qed.

(** X5.  The elements that pass a stateless predicate and those that pass
    its negation add up to [x.length]. *)
Theorem countIf_complement (q : value -> value -> nat -> value)
    (st : store H r) :
  exists n1 n2,
    countIf (S (len st)) (stateless q) thisArg st = Some (n1, st) /\
    countIf (S (len st)) (stateless (negated q)) thisArg st = Some (n2, st) /\
    n1 + n2 = len st.
Proof.
  eexists _, _. rewrite !stateless_run.
  split; [reflexivity|]. split; [reflexivity|].
  transitivity (length (seq 0 (len st))); [|apply length_seq].
  exact (filter_length (truthy_at q thisArg r (coll st)) (seq 0 (len st))).
Qed.

(** X6.  With a stateless predicate, the result is [x.length] exactly when
    the predicate is truthy at every index, and 0 exactly when it is truthy
    at none. *)
Theorem countIf_extremes (q : value -> value -> nat -> value)
    (st : store H r) :
  exists n,
    countIf (S (len st)) (stateless q) thisArg st = Some (n, st) /\
    (n = len st <->
     forall i, i < len st -> truthy_at q thisArg r (coll st) i = true) /\
    (n = 0 <->
     forall i, i < len st -> truthy_at q thisArg r (coll st) i = false).
Proof.
  eexists. rewrite stateless_run. split; [reflexivity|]. split.
  - split.
    + intros Hfull i Hi.
      apply (proj1 (filter_length_full _ (seq 0 (len st))));
        [rewrite length_seq; exact Hfull|apply in_seq; lia].
    + intros Hall.
      transitivity (length (seq 0 (len st))); [|apply length_seq].
      apply filter_length_full. intros i Hi. apply in_seq in Hi.
      apply Hall. lia.
  - rewrite filter_length_zero.
    split; intros Hnone i Hi; apply Hnone.
    + apply in_seq. lia.
    + apply in_seq in Hi. lia.
Qed.

(** X7.  A stateless predicate that is truthy wherever another one is
    counts at least as many elements. *)
Theorem countIf_monotone (q1 q2 : value -> value -> nat -> value)
    (st : store H r) :
  (forall i, i < len st ->
     truthy_at q1 thisArg r (coll st) i = true ->
     truthy_at q2 thisArg r (coll st) i = true) ->
  exists n1 n2,
    countIf (S (len st)) (stateless q1) thisArg st = Some (n1, st) /\
    countIf (S (len st)) (stateless q2) thisArg st = Some (n2, st) /\
    n1 <= n2.
Proof.
  intros Himp. eexists _, _. rewrite !stateless_run.
  split; [reflexivity|]. split; [reflexivity|].
  apply filter_length_mono. intros i Hi. apply in_seq in Hi.
  apply Himp. lia.
Qed.

(** X8.  Whatever the predicate does to [x], when [countIf] returns the
    count is at most the number of invocations made, and so is the length
    [x] then has: here the invocations are counted by the predicate itself,
    which adds one to a counter at every call. *)
Theorem countIf_at_most_invocations (count : H -> nat)
    (predicate : callback H (B := B)) (st st' : store H r) (fuel n : nat) :
  counts_calls count predicate ->
  countIf fuel predicate thisArg st = Some (n, st') ->
  exists e,
    count (heap st') = count (heap st) + e /\ n <= e /\ len st' <= e.
Proof.
  intros Hcount Hrun. rewrite countIf_run in Hrun.
  destruct (exit_index predicate thisArg st fuel 0) as [e|] eqn:Hexit;
    [|discriminate].
  cbn [option_map] in Hrun. injection Hrun as <- <-.
  exists e. split; [apply state_before_counts, Hcount|].
  split.
  - pose proof (passing_le predicate thisArg st 0 e). lia.
  - apply exit_index_test in Hexit. exact Hexit.
Qed.

(** X9.  The calls [countIf] makes: a predicate that records its context
    and arguments at every call ends with the calls
    [( thisArg, x[ i ], i )] for [i] from [0] to [x.length - 1], in that
    order and once each, after the calls recorded before. *)
Theorem countIf_calls (q : value -> value -> nat -> value) (c : backing r)
    (calls : list (value * value * nat)) :
  countIf (S (x_length r c)) (recording q) thisArg (mkStore r c calls) =
  Some (length (filter (truthy_at q thisArg r c) (seq 0 (x_length r c))),
        mkStore r c
          (calls ++
           map (fun i => (thisArg, element r c i, i)) (seq 0 (x_length r c)))).
Proof.
  assert (Hstate : forall i,
             state_before (recording q) thisArg i (mkStore r c calls) =
             mkStore r c
               (calls ++ map (fun i => (thisArg, element r c i, i)) (seq 0 i))).
  { induction i as [|i IH]; cbn [state_before].
    - cbn [seq map]. rewrite app_nil_r. reflexivity.
    - rewrite IH. unfold invoke. cbn [recording snd coll heap].
      rewrite seq_S, map_app, <- app_assoc. reflexivity. }
  assert (Hlen : length_stable (recording q) thisArg (mkStore r c calls))
    by (apply leaves_collection_stable; intros r' this v i st; reflexivity).
  pose proof (countIf_stable Hlen) as Hrun.
  unfold final_spec, count_spec, passing in Hrun. cbn [coll] in Hrun.
  rewrite Hrun, Hstate, Nat.sub_0_r. do 3 f_equal.
  apply filter_ext. intros i. unfold passes, invoke.
  rewrite Hstate. reflexivity.
Qed.


(** X11.  The index passed to the predicate runs from [0]: with the
    predicate [i < k], [countIf] returns the smaller of [k] and
    [x.length]. *)
Theorem countIf_index_below (k : nat) (st : store H r) :
  countIf (S (len st)) (stateless (index_below k)) thisArg st =
  Some (Nat.min k (len st), st).
Proof.
  rewrite stateless_run. do 2 f_equal.
  unfold truthy_at, index_below. cbn [ToBoolean].
  induction (len st) as [|m IH]; [rewrite Nat.min_0_r; reflexivity|].
  rewrite seq_S, filter_app, length_app, IH. cbn [filter Nat.add].
  destruct (m <? k) eqn:Hm; cbn [length].
  - apply Nat.ltb_lt in Hm. lia.
  - apply Nat.ltb_ge in Hm. lia.
Qed.

End Further.

(** * Plain arrays *)

Section Arrays.

Variable H : Type.
Variable thisArg : value.

Lemma map_nth_seq (xs : list value) :
  map (fun i => nth i xs VUndefined) (seq 0 (length xs)) = xs.
Proof.
  induction xs as [|x xs IH]; [reflexivity|].
  cbn [length].
  change (seq 0 (S (length xs))) with (0 :: seq 1 (length xs)).
  rewrite <- seq_shift. cbn [map]. rewrite map_map.
  f_equal. exact IH.
Qed.

Lemma seq_from (k n : nat) : seq k n = map (Nat.add k) (seq 0 n).
Proof.
  revert k.
  induction n as [|n IH]; intros k; [reflexivity|].
  cbn [seq map]. rewrite Nat.add_0_r. f_equal.
  rewrite <- (seq_shift n 0), map_map, (IH (S k)).
  apply map_ext. intros i. lia.
Qed.

Lemma filter_by_index (f : value -> bool) (xs : list value) :
  length (filter (fun i => f (nth i xs VUndefined)) (seq 0 (length xs))) =
  length (filter f xs).
Proof.
  transitivity
    (length (filter f (map (fun i => nth i xs VUndefined)
                         (seq 0 (length xs))))).
  - rewrite filter_map_swap, length_map. reflexivity.
  - rewrite map_nth_seq. reflexivity.
Qed.

(** X3.  On a plain array and on its accessor wrapper alike, [countIf] with
    a stateless predicate of the element returns the number of elements of
    the array on which the predicate is truthy. *)
Theorem countIf_by_value_array (q : value -> value) (xs : list value)
    (h : H) :
  countIf (B := AccessorArray) (S (length xs)) (by_value q) thisArg
    (mkStore Indexed xs h) =
  Some (length (filter (fun v => ToBoolean (q v)) xs),
        mkStore Indexed xs h) /\
  countIf (S (length xs)) (by_value q) thisArg
    (mkStore Accessor (toAccessorArray xs) h) =
  Some (length (filter (fun v => ToBoolean (q v)) xs),
        mkStore Accessor (toAccessorArray xs) h).
Proof.
  rewrite <- (filter_by_index (fun v => ToBoolean (q v)) xs).
  split.
  - exact (stateless_run thisArg (fun _ v _ => q v)
             (mkStore (B := AccessorArray) Indexed xs h)).
  - exact (stateless_run thisArg (fun _ v _ => q v)
             (mkStore Accessor (toAccessorArray xs) h)).
Qed.

(** X4.  Counting over a concatenation: the count on [xs.concat( ys )] is
    the count on [xs] plus the count on [ys], the elements of [ys] being
    visited at their indices in the whole, that is shifted by
    [xs.length]. *)
Theorem countIf_concat {B : Type} {protocol : AccessorProtocol B}
    (q : value -> value -> nat -> value) (xs ys : list value) (h : H) :
  exists n1 n2,
    countIf (S (length xs)) (stateless q) thisArg (mkStore Indexed xs h) =
      Some (n1, mkStore Indexed xs h) /\
    countIf (S (length ys)) (stateless (shifted (length xs) q)) thisArg
      (mkStore Indexed ys h) =
      Some (n2, mkStore Indexed ys h) /\
    countIf (S (length (xs ++ ys))) (stateless q) thisArg
      (mkStore Indexed (xs ++ ys) h) =
      Some (n1 + n2, mkStore Indexed (xs ++ ys) h).
Proof.
  eexists _, _.
  split; [exact (stateless_run thisArg q (mkStore Indexed xs h))|].
  split; [exact (stateless_run thisArg (shifted (length xs) q)
                   (mkStore Indexed ys h))|].
  etransitivity;
    [exact (stateless_run thisArg q (mkStore Indexed (xs ++ ys) h))|].
  do 2 f_equal. cbn [coll x_length].
  rewrite length_app, seq_app, filter_app, length_app. f_equal.
  - f_equal. apply filter_ext_in. intros i Hi. apply in_seq in Hi.
    unfold truthy_at, element. cbn [isAccessorArray x_index].
    rewrite app_nth1 by lia. reflexivity.
  - cbn [Nat.add]. rewrite (seq_from (length xs) (length ys)).
    rewrite filter_map_swap, length_map. f_equal.
    apply filter_ext. intros i.
    unfold truthy_at, element, shifted. cbn [isAccessorArray x_index].
    rewrite app_nth2_plus. reflexivity.
Qed.

End Arrays.

(** ** The further theorems at concrete inputs *)

Lemma countIf_monotone_witness :
  (forall i, i < x_length Indexed (coll (tested_indexed 0)) ->
     truthy_at (fun _ v _ => is_positive v) VUndefined Indexed
       (coll (tested_indexed 0)) i = true ->
     truthy_at (fun _ _ _ => VBool true) VUndefined Indexed
       (coll (tested_indexed 0)) i = true) /\
  exists n1 n2,
    countIf 6 (stateless (fun _ v _ => is_positive v)) VUndefined
      (tested_indexed 0) = Some (n1, tested_indexed 0) /\
    countIf 6 (stateless (fun _ _ _ => VBool true)) VUndefined
      (tested_indexed 0) = Some (n2, tested_indexed 0) /\
    n1 <= n2.
Proof.
  assert (Himp : forall i, i < x_length Indexed (coll (tested_indexed 0)) ->
            truthy_at (fun _ v _ => is_positive v) VUndefined Indexed
              (coll (tested_indexed 0)) i = true ->
            truthy_at (fun _ _ _ => VBool true) VUndefined Indexed
              (coll (tested_indexed 0)) i = true)
    by (intros i _ _; reflexivity).
  split; [exact Himp|].
  exact (countIf_monotone VUndefined _ _ (tested_indexed 0) Himp).
Defined.

Lemma countIf_at_most_invocations_witness :
  counts_calls (fun count => count) (@counting_popping AccessorArray) /\
  countIf 3 counting_popping (VObject 0) ones =
    Some (2, mkStore Indexed (numbers [1]%Z) 2) /\
  exists e, 2 = 0 + e /\ 2 <= e /\ 1 <= e.
Proof.
  assert (Hcount : counts_calls (fun count => count)
                     (@counting_popping AccessorArray))
    by (intros [|] this v i st; cbn; lia).
  assert (Hrun : countIf 3 counting_popping (VObject 0) ones =
                 Some (2, mkStore Indexed (numbers [1]%Z) 2))
    by (vm_compute; reflexivity).
  split; [exact Hcount|]. split; [exact Hrun|].
  exact (countIf_at_most_invocations (VObject 0) ones 3 Hcount Hrun).
Defined.


(** * Runs that change the length of the collection *)

Section Returning.

Variable H : Type.
Context {B : Type} {protocol : AccessorProtocol B}.
Variable r : representation.
Variable predicate : callback H (B := B).
Variable thisArg : value.

Local Abbreviation len st := (x_length r (coll st)).

(** A call that stops after [e] invocations returns within [e + 1] loop
    tests, with the count of the truthy ones among them. *)
Lemma stops_at_run (st : store H r) (e fuel : nat) :
  stops_at predicate thisArg st e ->
  e < fuel ->
  countIf fuel predicate thisArg st =
  Some (passing predicate thisArg st 0 e, state_before predicate thisArg e st).
Proof.
  intros [Hreach Hexit] Hfuel.
  assert (Hindex : exit_index predicate thisArg st fuel 0 = Some e).
  { apply exit_index_spec. split; [lia|].
    split; [intros j Hj; apply Hreach; lia|exact Hexit]. }
  rewrite countIf_run, Hindex. reflexivity.
Qed.

(** When no invocation made lengthens [x], the loop stops at an index that
    is at most the length [x] had at the call. *)
Lemma never_lengthened_stops (st : store H r) :
  never_lengthened predicate thisArg st ->
  exists e, e <= len st /\ stops_at predicate thisArg st e.
Proof.
  intros Hlen.
  assert (Hfrom : forall k i,
             i + k = len st ->
             reached predicate thisArg st i ->
             exists e, e <= len st /\ stops_at predicate thisArg st e).
  { induction k as [|k IH]; intros i Hik Hreach.
    - exists i. split; [lia|]. split; [exact Hreach|].
      specialize (Hlen i Hreach). lia.
    - destruct (le_lt_dec (len (state_before predicate thisArg i st)) i)
        as [Hstop|Hgo].
      + exists i. split; [lia|]. split; assumption.
      + apply (IH (S i)); [lia|].
        intros j Hj. destruct (Nat.eq_dec j i) as [->|Hne];
          [exact Hgo|apply Hreach; lia]. }
  apply (Hfrom (len st) 0); [reflexivity|].
  intros j Hj. lia.
Qed.


(** C10, as amended.  If no invocation the loop makes leaves [x] longer
    than it was when [countIf] was called, the call returns and the result
    lies between 0 and that length. *)
Theorem countIf_bounded (st : store H r) :
  never_lengthened predicate thisArg st ->
  exists n st',
    countIf (S (len st)) predicate thisArg st = Some (n, st') /\
    0 <= n <= len st.
Proof.
  intros Hlen.
  destruct (never_lengthened_stops Hlen) as (e & Hle & Hstop).
  eexists _, _. split; [apply (stops_at_run Hstop); lia|].
  pose proof (passing_le predicate thisArg st 0 e). lia.
Qed.

End Returning.

(** On [[ 1, 1, 1 ]] the predicate [pop_then_grow] is invoked at the indices
    0 and 1 and pops an element each time; the loop test then fails at
    index 2, and the predicate is never invoked on the array of length 1
    that it would lengthen. *)


Lemma countIf_bounded_witness :
  never_lengthened (@pop_then_grow nat _ (VBool true)) VUndefined ones /\
  exists n st',
    countIf 4 (@pop_then_grow nat _ (VBool true)) VUndefined ones =
      Some (n, st') /\
    0 <= n <= 3.
Proof.
  assert (Hlen : never_lengthened (@pop_then_grow nat _ (VBool true))
                   VUndefined ones).
  { intros e Hreach.
    destruct e as [|[|[|e]]]; try (vm_compute; lia).
    specialize (Hreach 2). vm_compute in Hreach. lia. }
  split; [exact Hlen|].
  exact (countIf_bounded Hlen).
Defined.
